(** * rigrun: the cache-store patch script [fix_cache_store.py]

    The script reads [C:\rigrun\src\server\mod.rs], replaces every
    occurrence of the legacy cache-store block by a block that dispatches
    on a precomputed embedding, writes the text back and prints a message.

    The development has four parts:
    - [Py]: Python text, the literal fragment of [re] the script uses,
      text-mode file input and output, and the script itself;
    - [Rust]: the two Rust blocks the script's string constants hold,
      as syntax trees whose rendering is checked against the constants,
      with a trace semantics of lock acquisition, calls and suspensions;
    - [Sched]: a reader/writer lock shared by the patched call site and a
      concurrent lookup;
    - [Cache]: the similarity index and the entry store behind the call
      site, which are not part of the script.
    The definitions come first; the facts about them follow, the script's
    text transformation before the installed block. *)

From Stdlib Require Import NArith Ascii String.
From stdpp Require Import base option list gmap strings.

(** ** Python text *)

Module Py.
Local Open Scope N_scope.

(** A Python [str] is a sequence of code points. *)
Definition str : Type := list N.

Definition LF : N := 10.
Definition CR : N := 13.
Definition BACKSLASH : N := 92.

Definition str_of (s : string) : str :=
  List.map N_of_ascii (list_ascii_of_string s).

(** [sep.join(parts)] *)
Fixpoint join (sep : str) (parts : list str) : str :=
  match parts with
  | [] => []
  | [p] => p
  | p :: rest => p ++ sep ++ join sep rest
  end.

(** A triple-quoted literal, given line by line: the lines are separated
    by a line feed and the last one is not terminated. *)
Definition text_block (lines : list string) : str :=
  join [LF] (List.map str_of lines).

(** [s.startswith(p)] *)
Fixpoint startswith (p s : str) : bool :=
  match p, s with
  | [], _ => true
  | _ :: _, [] => false
  | a :: p', b :: s' => (a =? b) && startswith p' s'
  end.

(** [p in s] *)
Fixpoint occurs (p s : str) : bool :=
  match s with
  | [] => startswith p []
  | _ :: s' => startswith p s || occurs p s'
  end.

(** The non-empty suffixes of a text, longest first. *)
Fixpoint suffixes (s : str) : list str :=
  match s with
  | [] => []
  | _ :: s' => s :: suffixes s'
  end.

(** Two texts are comparable when one is a prefix of the other. *)
Definition comparable (a b : str) : bool := startswith a b || startswith b a.

(** [first_at_end p g]: in [g ++ p], the pattern [p] starts nowhere before
    the end of [g]. *)
Definition first_at_end (p g : str) : bool :=
  negb (occurs p (g ++ removelast p)).

(** [clash_free pat rep]: no non-empty suffix of [pat] is comparable with
    [rep], and [pat] is comparable with no non-empty suffix of [rep]; then
    [pat] cannot start inside or across an inserted [rep]. *)
Definition clash_free (pat rep : str) : bool :=
  forallb (fun v => negb (comparable v rep)) (suffixes pat)
  && forallb (fun w => negb (comparable pat w)) (suffixes rep).

(** ** The fragment of [re] the script uses *)

Module re.

(** [sre_parse.SPECIAL_CHARS]: the characters that are not literals when
    they stand unescaped in a pattern. *)
Definition SPECIAL_CHARS : str := str_of ".\[{()*+?^$|".

Definition is_special (c : N) : bool := existsb (N.eqb c) SPECIAL_CHARS.

(** ASCII letters and digits: after a backslash they start a special
    sequence ([\d], [\n], [\1], ...). *)
Definition is_ascii_alnum (c : N) : bool :=
  ((48 <=? c) && (c <=? 57)) || ((65 <=? c) && (c <=? 90))
  || ((97 <=? c) && (c <=? 122)).

(** [re.compile] on the literal fragment: a pattern made of ordinary
    characters and of escaped characters that are no ASCII letter or digit
    compiles to the text it matches. Any other pattern is outside the
    fragment and yields [None]. *)
Fixpoint compile (pattern : str) : option str :=
  match pattern with
  | [] => Some []
  | c :: rest =>
      if c =? BACKSLASH then
        match rest with
        | [] => None
        | d :: rest' =>
            if is_ascii_alnum d then None else cons d <$> compile rest'
        end
      else if is_special c then None
      else cons c <$> compile rest
  end.

(** The replacement template: a template without backslash stands for
    itself; escapes and group references are outside the fragment. *)
Definition template (repl : str) : option str :=
  if existsb (N.eqb BACKSLASH) repl then None else Some repl.

(** The scan of [re.sub] for a non-empty literal [pat]: the text is read
    from the left; at a position where [pat] starts, [rep] is emitted and
    the scan resumes after the match ([skip] counts the characters of the
    match still to pass); any other character is copied. *)
Fixpoint scan (pat rep : str) (skip : nat) (s : str) : str :=
  match s with
  | [] => []
  | c :: s' =>
      match skip with
      | S k => scan pat rep k s'
      | O =>
          if startswith pat s then rep ++ scan pat rep (length pat - 1) s'
          else c :: scan pat rep 0 s'
      end
  end.

(** An empty pattern matches before every character and at the end. *)
Definition sub_literal (pat rep s : str) : str :=
  match pat with
  | [] => rep ++ flat_map (fun c => c :: rep) s
  | _ :: _ => scan pat rep 0 s
  end.

(** [re.sub(pattern, repl, string)] *)
Definition sub (pattern repl string : str) : option str :=
  pat ← compile pattern;
  rep ← template repl;
  Some (sub_literal pat rep string).

End re.

(** ** The script's constants *)

(** [old_pattern], lines 9 to 16 of the script (a raw string). *)
Definition old_pattern : str := text_block [
  "    // Store response in cache for future hits";
  "    let mut cache = state\.cache\.write\(\)\.await;";
  "    cache\.store_response\(";
  "        cache_key,";
  "        response_text\.clone\(\),";
  "        actual_tier,";
  "        prompt_tokens \+ completion_tokens,";
  "    \)\.await;" ]%string.

(** [new_code], lines 19 to 39 of the script. *)
Definition new_code : str := text_block [
  "    // Store response in cache for future hits";
  "    // CRITICAL FIX: Use pre-generated embedding to avoid holding write lock during embedding generation";
  "    let mut cache = state.cache.write().await;";
  "    if let Some(emb) = embedding {";
  "        // Use store_with_embedding to avoid regenerating the embedding";
  "        cache.store_with_embedding(";
  "            cache_key,";
  "            emb,";
  "            response_text.clone(),";
  "            actual_tier,";
  "            prompt_tokens + completion_tokens,";
  "        );";
  "    } else {";
  "        // Fallback to regular store if embedding generation failed earlier";
  "        cache.store_response(";
  "            cache_key,";
  "            response_text.clone(),";
  "            actual_tier,";
  "            prompt_tokens + completion_tokens,";
  "        ).await;";
  "    }" ]%string.

(** The text [old_pattern] matches. *)
Definition legacy_text : str := text_block [
  "    // Store response in cache for future hits";
  "    let mut cache = state.cache.write().await;";
  "    cache.store_response(";
  "        cache_key,";
  "        response_text.clone(),";
  "        actual_tier,";
  "        prompt_tokens + completion_tokens,";
  "    ).await;" ]%string.

(** The file the script opens, twice (lines 5 and 45). *)
Definition PATH : string := "C:\rigrun\src\server\mod.rs".

(** The line the script prints (line 48). *)
Definition MESSAGE : str := str_of "File modified successfully!".

(** ** Text-mode files

    Both [open] calls pass [encoding='utf-8'] and leave [newline] at its
    default, [None]: reading turns every line ending into a line feed,
    writing turns every line feed into the platform's separator. *)

Inductive platform : Set := Posix | Windows.

(** [os.linesep] *)
Definition linesep (p : platform) : str :=
  match p with
  | Posix => [LF]
  | Windows => [CR; LF]
  end.

(** What a file holds, seen through the utf-8 codec: bytes that do not
    decode, or the code points the bytes decode to. The strict codec
    encodes a decoded text back to the bytes it came from, so two files
    hold the same bytes exactly when they hold the same [raw] text. *)
Inductive file_data : Type :=
  | Undecodable
  | Text (raw : str).

(** Universal newlines on input: a carriage return, with the line feed
    that follows it if there is one, is read as one line feed. *)
Fixpoint universal_newlines (raw : str) : str :=
  match raw with
  | [] => []
  | c :: rest =>
      if c =? CR then
        LF :: match rest with
              | [] => []
              | d :: rest' =>
                  if d =? LF then universal_newlines rest'
                  else universal_newlines rest
              end
      else c :: universal_newlines rest
  end.

(** Newline translation on output. *)
Definition translate_newlines (p : platform) (s : str) : str :=
  flat_map (fun c => if c =? LF then linesep p else [c]) s.

(** What both passes together do to a file that is rewritten as read. *)
Definition normalize_newlines (p : platform) (raw : str) : str :=
  translate_newlines p (universal_newlines raw).

Record world : Type := World {
  files : gmap string file_data;
  stdout : list str;
}.

Inductive exn : Set :=
  | FileNotFoundError
  | UnicodeDecodeError
  | re_error.

(** A statement of the script: it changes the world and returns a value
    or raises. *)
Definition io (A : Type) : Type := world -> (exn + A) * world.

#[export] Instance io_ret : MRet io := fun A a w => (inr a, w).

#[export] Instance io_bind : MBind io := fun A B f m w =>
  match m w with
  | (inl e, w') => (inl e, w')
  | (inr a, w') => f a w'
  end.

Definition raise {A : Type} (e : exn) : io A := fun w => (inl e, w).

(** [with open(path, 'r', encoding='utf-8') as f: f.read()]. Of what
    [open] can raise, the missing file is modelled; a path that cannot be
    opened for another reason (permissions, a directory) is outside the
    model. *)
Definition read_text (path : string) : io str := fun w =>
  match files w !! path with
  | None => (inl FileNotFoundError, w)
  | Some Undecodable => (inl UnicodeDecodeError, w)
  | Some (Text raw) => (inr (universal_newlines raw), w)
  end.

(** [with open(path, 'w', encoding='utf-8') as f: f.write(s)]. Opening
    and writing are taken to succeed: a target that cannot be written and
    a text that does not encode (a lone surrogate) are outside the
    model. *)
Definition write_text (p : platform) (path : string) (s : str) : io unit :=
  fun w =>
    (inr tt, {| files := <[path := Text (translate_newlines p s)]> (files w);
                stdout := stdout w |}).

(** [print(s)] *)
Definition print (s : str) : io unit := fun w =>
  (inr tt, {| files := files w; stdout := stdout w ++ [s ++ [LF]] |}).

(** [re.sub] as a statement: a pattern outside the fragment is an error. *)
Definition re_sub (pattern repl string : str) : io str :=
  match re.sub pattern repl string with
  | Some s => mret s
  | None => raise re_error
  end.

(** The script, lines 4 to 48. *)
Definition main (p : platform) : io unit :=
  content ← read_text PATH;
  new_content ← re_sub old_pattern new_code content;
  write_text p PATH new_content;;
  print MESSAGE.

(** [has_cr s]: a carriage return stands in [s]. *)
Definition has_cr (s : str) : bool := existsb (N.eqb CR) s.

(** Two worlds to run the script in: a source file that holds the legacy
    block between two lines, with the line endings of Windows, and a file
    that holds a given text. *)
Definition sample_world : world :=
  {| files := {[ PATH := Text (str_of "fn f() {" ++ [CR; LF] ++ legacy_text
                               ++ [CR; LF] ++ str_of "}") ]};
     stdout := [] |}.

Definition plain_world (raw : str) : world :=
  {| files := {[ PATH := Text raw ]}; stdout := [] |}.

(** [unbordered p]: no proper non-empty suffix of [p] is a prefix of [p];
    two occurrences of such a text never overlap. *)
Definition unbordered (p : str) : bool :=
  forallb (fun v => negb (startswith v p)) (suffixes (tail p)).

End Py.

(** ** The Rust blocks the script's constants hold *)

Module Rust.

#[warnings="-register-all"]
Inductive expr : Type :=
  | EVar (x : string)
  | EField (e : expr) (field : string)
  | ECall (recv : expr) (method : string) (args : list expr)
  | EAwait (e : expr)
  | EAdd (a b : expr)
  | ETry (e : expr).

#[warnings="-register-all"]
Inductive stmt : Type :=
  | SComment (text : string)
  | SLetMut (x : string) (e : expr)
  | SExpr (e : expr)
  | SIfLetSome (x : string) (scrutinee : expr) (then_ else_ : list stmt).

Definition block : Type := list stmt.

(** *** Rendering, four spaces a level *)

Fixpoint indent (level : nat) : string :=
  match level with
  | O => ""
  | S n => "    " +:+ indent n
  end.

Fixpoint on_last (f : string -> string) (lines : list string) : list string :=
  match lines with
  | [] => []
  | [l] => [f l]
  | l :: rest => l :: on_last f rest
  end.

Definition on_first (f : string -> string) (lines : list string) : list string :=
  match lines with
  | [] => []
  | l :: rest => f l :: rest
  end.

(** [glue a b]: the last line of [a] continues with the first of [b]. *)
Definition glue (a b : list string) : list string :=
  match b with
  | [] => a
  | l :: rest => on_last (fun x => x +:+ l) a ++ rest
  end.

(** An expression starts on the current line; a call with arguments puts
    each one on a line of its own, a comma after it, one level deeper. *)
Fixpoint show_expr (e : expr) (level : nat) {struct e} : list string :=
  match e with
  | EVar x => [x]
  | EField e' f => on_last (fun l => l +:+ "." +:+ f) (show_expr e' level)
  | ECall r m [] => on_last (fun l => l +:+ "." +:+ m +:+ "()") (show_expr r level)
  | ECall r m args =>
      on_last (fun l => l +:+ "." +:+ m +:+ "(") (show_expr r level)
      ++ flat_map (fun a =>
           on_first (fun l => indent (S level) +:+ l)
             (on_last (fun l => l +:+ ",") (show_expr a (S level)))) args
      ++ [indent level +:+ ")"]
  | EAwait e' => on_last (fun l => l +:+ ".await") (show_expr e' level)
  | EAdd a b => glue (on_last (fun l => l +:+ " + ") (show_expr a level)) (show_expr b level)
  | ETry e' => on_last (fun l => l +:+ "?") (show_expr e' level)
  end.

Fixpoint show_stmt (level : nat) (s : stmt) {struct s} : list string :=
  match s with
  | SComment text => [indent level +:+ "// " +:+ text]
  | SLetMut x e =>
      on_first (fun l => indent level +:+ "let mut " +:+ x +:+ " = " +:+ l)
        (on_last (fun l => l +:+ ";") (show_expr e level))
  | SExpr e =>
      on_first (fun l => indent level +:+ l)
        (on_last (fun l => l +:+ ";") (show_expr e level))
  | SIfLetSome x sc then_ else_ =>
      on_first (fun l => indent level +:+ "if let Some(" +:+ x +:+ ") = " +:+ l)
        (on_last (fun l => l +:+ " {") (show_expr sc level))
      ++ flat_map (show_stmt (S level)) then_
      ++ [indent level +:+ "} else {"]
      ++ flat_map (show_stmt (S level)) else_
      ++ [indent level +:+ "}"]
  end.

(** A block inside a function body, as the script's constants hold it. *)
Definition render (b : block) : Py.str :=
  Py.text_block (flat_map (show_stmt 1) b).

(** *** The two blocks *)

Definition acquire_write : stmt :=
  SLetMut "cache" (EAwait (ECall (EField (EVar "state") "cache") "write" [])).

Definition response_args : list expr :=
  [ ECall (EVar "response_text") "clone" [];
    EVar "actual_tier";
    EAdd (EVar "prompt_tokens") (EVar "completion_tokens") ].

Definition store_response_call : expr :=
  EAwait (ECall (EVar "cache") "store_response" (EVar "cache_key" :: response_args)).

Definition store_with_embedding_call : expr :=
  ECall (EVar "cache") "store_with_embedding"
    (EVar "cache_key" :: EVar "emb" :: response_args).

(** The block [old_pattern] matches. *)
Definition legacy_block : block :=
  [ SComment "Store response in cache for future hits";
    acquire_write;
    SExpr store_response_call ].

(** The block [new_code] installs. *)
Definition installed_block : block :=
  [ SComment "Store response in cache for future hits";
    SComment "CRITICAL FIX: Use pre-generated embedding to avoid holding write lock during embedding generation";
    acquire_write;
    SIfLetSome "emb" (EVar "embedding")
      [ SComment "Use store_with_embedding to avoid regenerating the embedding";
        SExpr store_with_embedding_call ]
      [ SComment "Fallback to regular store if embedding generation failed earlier";
        SExpr store_response_call ] ].

(** *** Execution: lock acquisition, calls and suspension points *)

(** Values are symbolic: the block's free variables stand for themselves. *)
#[warnings="-register-all"]
Inductive value : Type :=
  | VOpaque (name : string)
  | VFieldOf (v : value) (field : string)
  | VSome (v : value)
  | VNone
  | VWriteGuard (lock : value)
  | VResult (recv : value) (method : string) (args : list value)
  | VSum (a b : value).

(** A call, with the receiver and the arguments it got; [awaited] tells a
    call under [.await], a suspension point of the caller, from a call
    that runs to its end without suspending. *)
Record call : Type := Call {
  recv : value;
  method : string;
  args : list value;
  awaited : bool;
}.

(** An event of the trace: a call and the locks whose write guard was
    alive when it was made. *)
Record event : Type := Event {
  held : list value;
  made : call;
}.

Record config : Type := Config {
  env : list (string * value);
  guards : list value;
  trace : list event;
}.

(** How a piece of code ends: with a value, by leaving the enclosing
    function early (the [?] operator on an error), or not at all (code
    outside the fragment). *)
Inductive result (A : Type) : Type :=
  | Value (a : A) (c : config)
  | Left_early (c : config)
  | Stuck.
Arguments Value {A} a c.
Arguments Left_early {A} c.
Arguments Stuck {A}.

Definition bind {A B : Type} (m : result A) (f : A -> config -> result B) : result B :=
  match m with
  | Value a c => f a c
  | Left_early c => Left_early c
  | Stuck => Stuck
  end.

Fixpoint lookup_var (x : string) (e : list (string * value)) : value :=
  match e with
  | [] => VOpaque x
  | (y, v) :: rest => if String.eqb x y then v else lookup_var x rest
  end.

Definition emit (k : call) (c : config) : config :=
  {| env := env c; guards := guards c;
     trace := trace c ++ [{| held := guards c; made := k |}] |}.

(** [state.cache] is an asynchronous reader/writer lock (line 20 of the
    script: "holding write lock"): awaiting its [write()] yields the write
    guard. *)
Definition acquires_write (m : string) (avs : list value) : bool :=
  String.eqb m "write" && bool_decide (avs = []).

(** The arguments of a call, from left to right. *)
Definition eval_all (ev : expr -> config -> result value)
  : list expr -> config -> result (list value) :=
  fix go (es : list expr) (c : config) : result (list value) :=
    match es with
    | [] => Value [] c
    | a :: rest =>
        bind (ev a c) (fun v c =>
        bind (go rest c) (fun vs c => Value (v :: vs) c))
    end.

(** The statements of a block, in order. *)
Definition exec_all (ex : stmt -> config -> result unit)
  : list stmt -> config -> result unit :=
  fix go (b : list stmt) (c : config) : result unit :=
    match b with
    | [] => Value tt c
    | s :: rest => bind (ex s c) (fun _ c => go rest c)
    end.

Section Exec.
(** Which methods return an error, should the block look at the result. *)
Variable fails : string -> bool.

Fixpoint eval (e : expr) (c : config) {struct e} : result value :=
  match e with
  | EVar x => Value (lookup_var x (env c)) c
  | EField e' f => bind (eval e' c) (fun v c => Value (VFieldOf v f) c)
  | ECall r m es =>
      bind (eval r c) (fun rv c =>
      bind (eval_all eval es c) (fun avs c =>
      Value (VResult rv m avs) (emit (Call rv m avs false) c)))
  | EAwait (ECall r m es) =>
      bind (eval r c) (fun rv c =>
      bind (eval_all eval es c) (fun avs c =>
      Value (if acquires_write m avs then VWriteGuard rv else VResult rv m avs)
            (emit (Call rv m avs true) c)))
  | EAwait _ => Stuck
  | EAdd a b =>
      bind (eval a c) (fun va c =>
      bind (eval b c) (fun vb c => Value (VSum va vb) c))
  | ETry e' =>
      bind (eval e' c) (fun v c =>
      match v with
      | VResult _ m _ => if fails m then Left_early c else Value v c
      | _ => Value v c
      end)
  end.

(** Leaving a scope drops what was bound inside: bindings and guards are
    those of the scope's entry again. *)
Definition leave_scope (outer : config) (c : config) : config :=
  {| env := env outer; guards := guards outer; trace := trace c |}.

Fixpoint exec (s : stmt) (c : config) {struct s} : result unit :=
  match s with
  | SComment _ => Value tt c
  | SLetMut x e =>
      bind (eval e c) (fun v c =>
      Value tt {| env := (x, v) :: env c;
                  guards := match v with
                            | VWriteGuard l => l :: guards c
                            | _ => guards c
                            end;
                  trace := trace c |})
  | SExpr e => bind (eval e c) (fun _ c => Value tt c)
  | SIfLetSome x sc then_ else_ =>
      bind (eval sc c) (fun v c =>
      match v with
      | VSome payload =>
          bind (exec_all exec then_
                  {| env := (x, payload) :: env c; guards := guards c; trace := trace c |})
               (fun _ c' => Value tt (leave_scope c c'))
      | VNone =>
          bind (exec_all exec else_ c) (fun _ c' => Value tt (leave_scope c c'))
      | _ => Stuck
      end)
  end.

Definition exec_block : block -> config -> result unit := exec_all exec.

End Exec.

(** The call site: [embedding] is what the caller's earlier embedding
    generation left, [Some] vector or [None]. *)
Definition call_site (embedding : value) : config :=
  {| env := [("embedding"%string, embedding)]; guards := []; trace := [] |}.

Definition run (fails : string -> bool) (b : block) (embedding : value) : result unit :=
  exec_block fails b (call_site embedding).

Definition trace_of (r : result unit) : list event :=
  match r with
  | Value _ c => trace c
  | Left_early c => trace c
  | Stuck => []
  end.

Definition completes (r : result unit) : bool :=
  match r with
  | Value _ _ => true
  | _ => false
  end.

(** Modelled from the spec: the bodies of the cache's methods are not in
    the script. [store_response] "computes the embedding internally"
    (section 4.1, and the comments of [new_code]); [store_with_embedding]
    is handed the embedding and computes none. *)
Definition generates_embedding (m : string) : bool :=
  String.eqb m "store_response".

(** An embedding is generated at a suspension point of the caller while a
    write guard is alive. *)
Definition embeds_under_write_lock (ev : event) : bool :=
  awaited (made ev) && generates_embedding (method (made ev))
  && negb (bool_decide (held ev = [])).

(** The suspension points met while a write guard is alive. *)
Definition suspensions_under_write_lock (tr : list event) : list event :=
  filter (fun ev => awaited (made ev) = true /\ held ev <> []) tr.

(** [c'] continues [c] without suspending: the trace grew by calls that
    are not awaited. *)
Definition continues_sync (c c' : config) : Prop :=
  exists evs : list event,
    trace c' = trace c ++ evs /\ Forall (fun ev => awaited (made ev) = false) evs.

Definition runs_sync {A : Type} (c : config) (r : result A) : Prop :=
  match r with
  | Value _ c' => continues_sync c c'
  | Left_early c' => continues_sync c c'
  | Stuck => True
  end.

(** Induction on expressions, the arguments of a call included. *)
Definition expr_induction (P : expr -> Prop)
    (HVar : forall x, P (EVar x))
    (HField : forall e f, P e -> P (EField e f))
    (HCall : forall r m es, P r -> Forall P es -> P (ECall r m es))
    (HAwait : forall e, P e -> P (EAwait e))
    (HAdd : forall a b, P a -> P b -> P (EAdd a b))
    (HTry : forall e, P e -> P (ETry e)) : forall e, P e :=
  fix go (e : expr) : P e :=
    match e with
    | EVar x => HVar x
    | EField e' f => HField e' f (go e')
    | ECall r m es =>
        HCall r m es (go r)
          ((fix all (l : list expr) : Forall P l :=
              match l with
              | [] => @List.Forall_nil _ P
              | a :: l' => @List.Forall_cons _ P a l' (go a) (all l')
              end) es)
    | EAwait e' => HAwait e' (go e')
    | EAdd a b => HAdd a b (go a) (go b)
    | ETry e' => HTry e' (go e')
    end.

(** The syntactic counterpart: [.await] occurs in an expression. *)
Fixpoint has_await (e : expr) : bool :=
  match e with
  | EVar _ => false
  | EField e' _ => has_await e'
  | ECall r _ es => has_await r || existsb has_await es
  | EAwait _ => true
  | EAdd a b => has_await a || has_await b
  | ETry e' => has_await e'
  end.

(** The [?] operator occurs in an expression, in a statement. *)
Fixpoint has_try (e : expr) : bool :=
  match e with
  | EVar _ => false
  | EField e' _ => has_try e'
  | ECall r _ es => has_try r || existsb has_try es
  | EAwait e' => has_try e'
  | EAdd a b => has_try a || has_try b
  | ETry _ => true
  end.

Fixpoint stmt_has_try (s : stmt) : bool :=
  match s with
  | SComment _ => false
  | SLetMut _ e => has_try e
  | SExpr e => has_try e
  | SIfLetSome _ sc then_ else_ =>
      has_try sc || existsb stmt_has_try then_ || existsb stmt_has_try else_
  end.

(** The code did not leave the enclosing function early. *)
Definition stays {A : Type} (r : result A) : bool :=
  match r with
  | Left_early _ => false
  | _ => true
  end.

(** Induction on statements, the statements of both branches included. *)
Definition stmt_induction (P : stmt -> Prop)
    (HComment : forall t, P (SComment t))
    (HLet : forall x e, P (SLetMut x e))
    (HExpr : forall e, P (SExpr e))
    (HIf : forall x sc t e, Forall P t -> Forall P e -> P (SIfLetSome x sc t e))
  : forall s, P s :=
  fix go (s : stmt) : P s :=
    let all := fix all (l : list stmt) : Forall P l :=
      match l with
      | [] => @List.Forall_nil _ P
      | a :: l' => @List.Forall_cons _ P a l' (go a) (all l')
      end in
    match s with
    | SComment t => HComment t
    | SLetMut x e => HLet x e
    | SExpr e => HExpr e
    | SIfLetSome x sc t e => HIf x sc t e (all t) (all e)
    end.

(** The values the block's expressions denote at the call site. *)
Definition the_lock : value := VFieldOf (VOpaque "state") "cache".
Definition the_guard : value := VWriteGuard the_lock.
Definition response_values : list value :=
  [ VResult (VOpaque "response_text") "clone" [];
    VOpaque "actual_tier";
    VSum (VOpaque "prompt_tokens") (VOpaque "completion_tokens") ].

End Rust.

(** ** The reader/writer lock around the cache *)

Module Sched.

Inductive lock : Set :=
  | Free
  | Shared (readers : nat)
  | Exclusive.

Inductive op : Set :=
  | AcquireWrite
  | ReleaseWrite
  | AcquireRead
  | ReleaseRead
  | Work.

Definition task : Set := list op.

(** [grant o l]: the lock after [o], when [o] can be done with the lock
    at [l]; a task whose next operation is not granted waits. *)
Definition grant (o : op) (l : lock) : option lock :=
  match o, l with
  | AcquireWrite, Free => Some Exclusive
  | ReleaseWrite, Exclusive => Some Free
  | AcquireRead, Free => Some (Shared 1)
  | AcquireRead, Shared n => Some (Shared (S n))
  | ReleaseRead, Shared 1 => Some Free
  | ReleaseRead, Shared (S (S n)) => Some (Shared (S n))
  | Work, l => Some l
  | _, _ => None
  end.

(** Two tasks on one lock: the request handler that stores a response,
    and one that looks a request up. *)
Record system : Set := System {
  rwlock : lock;
  storer : task;
  lookup : task;
}.

Inductive step : system -> system -> Prop :=
  | step_storer l o t k l' :
      grant o l = Some l' ->
      step (System l (o :: t) k) (System l' t k)
  | step_lookup l o t k l' :
      grant o l = Some l' ->
      step (System l t (o :: k)) (System l' t k).

(** The storer's operations, read off a trace of the call site: the
    awaited [write()] takes the lock; an awaited call that generates an
    embedding works for [latency] steps before its insert; any other call
    is one step. *)
Definition ops_of_event (latency : nat) (ev : Rust.event) : task :=
  let k := Rust.made ev in
  if Rust.awaited k && Rust.acquires_write (Rust.method k) (Rust.args k)
  then [AcquireWrite]
  else if Rust.awaited k && Rust.generates_embedding (Rust.method k)
  then replicate latency Work ++ [Work]
  else [Work].

(** The guard [cache] is bound in the enclosing function body and dropped
    after the block. *)
Definition storer_task (latency : nat) (tr : list Rust.event) : task :=
  flat_map (ops_of_event latency) tr ++ [ReleaseWrite].

(** Modelled from the spec: the lookup is not in the script. Section 5:
    "Acquire a shared lock for read-only lookups (exact-key match, index
    query)". *)
Definition lookup_task : task := [AcquireRead; Work; ReleaseRead].

Definition initial (latency : nat) (tr : list Rust.event) : system :=
  System Free (storer_task latency tr) lookup_task.

End Sched.

(** ** The cache behind the call site *)

Module Cache.

Section Model.
Context {Key Embedding Response Tier : Type}.

(** Modelled from the spec: the cache entry of section 3,
    "{key, embedding, response payload, tier, token cost, insertion
    time}". An entry recorded by the key-only (non-semantic) fallback
    insertion of sections 4.1 and 7 carries no embedding. *)
Record CacheEntry : Type := {
  key : Key;
  embedding : option Embedding;
  response : Response;
  tier : Tier;
  token_cost : nat;
  insertion_time : nat;
}.

(** Modelled from the spec: the Entry Store of section 4.3, with
    [put(entry) -> entry_id], [get(entry_id)] and [remove(entry_id)]; the
    store hands out identifiers in order. *)
Record EntryStore : Type := {
  table : gmap nat CacheEntry;
  next_id : nat;
}.

(** Modelled from the spec: [put(entry) -> entry_id] of section 4.3. *)
Definition put (e : CacheEntry) (s : EntryStore) : nat * EntryStore :=
  (next_id s, {| table := <[next_id s := e]> (table s); next_id := S (next_id s) |}).


(** Modelled from the spec: [remove(entry_id)] of section 4.3. *)
Definition store_remove (id : nat) (s : EntryStore) : EntryStore :=
  {| table := delete id (table s); next_id := next_id s |}.

(** Modelled from the spec: the Similarity Index of section 4.2, with
    [insert(embedding, entry_id)] and [remove(entry_id)]; the newest
    entry stands first. *)
Definition SimilarityIndex : Type := list (Embedding * nat).

(** Modelled from the spec: [insert(embedding, entry_id)] of section 4.2. *)
Definition index_insert (emb : Embedding) (id : nat) (ix : SimilarityIndex)
  : SimilarityIndex := (emb, id) :: ix.

(** Modelled from the spec: [remove(entry_id)] of section 4.2. *)
Definition index_remove (id : nat) (ix : SimilarityIndex) : SimilarityIndex :=
  filter (fun p => p.2 <> id) ix.

(** Modelled from the spec: the Semantic Cache of section 4.1 owns both
    structures. *)
Record SemanticCache : Type := {
  index : SimilarityIndex;
  entries : EntryStore;
}.

(** Modelled from the spec: a cache with no entry. *)
Definition empty : SemanticCache :=
  {| index := []; entries := {| table := ∅; next_id := 0 |} |}.

(** Modelled from the spec: the operations of the cache that change it.
    An insert of an entry with an embedding is [store_with_embedding], or
    [store_response] whose embedding generation succeeded; an insert of
    an entry without one is the key-only fallback insertion of
    [store_response] (sections 4.1, 7 and 8); a remove is an eviction or
    an invalidation. *)
Inductive operation : Type :=
  | Insert (e : CacheEntry)
  | Remove (id : nat).

(** Modelled from the spec: the single changes of section 5, "index
    insert/remove + entry store insert/remove". *)
Inductive mutation : Type :=
  | PutEntry (e : CacheEntry)
  | IndexInsert (emb : Embedding) (id : nat)
  | IndexRemove (id : nat)
  | RemoveEntry (id : nat).

Definition mutate (c : SemanticCache) (m : mutation) : SemanticCache :=
  match m with
  | PutEntry e => {| index := index c; entries := (put e (entries c)).2 |}
  | IndexInsert emb id => {| index := index_insert emb id (index c); entries := entries c |}
  | IndexRemove id => {| index := index_remove id (index c); entries := entries c |}
  | RemoveEntry id => {| index := index c; entries := store_remove id (entries c) |}
  end.

(** Modelled from the spec: the changes one operation makes inside its
    critical section, "index update + entry store write" (section 4.1);
    the key-only insertion writes the store and leaves the index. *)
Definition section_of (c : SemanticCache) (o : operation) : list mutation :=
  match o with
  | Insert e =>
      PutEntry e ::
      match embedding e with
      | Some emb => [IndexInsert emb (next_id (entries c))]
      | None => []
      end
  | Remove id => [IndexRemove id; RemoveEntry id]
  end.

(** Modelled from the spec: the cache behind its exclusive lock (section
    5). [exclusive] tells whether the lock is held, [pending] what the
    holder has still to change. *)
Record state : Type := {
  cache : SemanticCache;
  exclusive : bool;
  pending : list mutation;
}.

Definition initial : state :=
  {| cache := empty; exclusive := false; pending := [] |}.

(** Modelled from the spec: what can happen to the cache. An operation
    begins by taking the exclusive lock, which it gets only when the lock
    is free; it makes its changes one by one while it holds the lock; it
    ends, when nothing is left to change, by releasing the lock. *)
Inductive event : Type :=
  | Begin (o : operation)
  | Change
  | Finish.

Definition step (ev : event) (s : state) : option state :=
  match ev, exclusive s, pending s with
  | Begin o, false, _ =>
      Some {| cache := cache s; exclusive := true;
              pending := section_of (cache s) o |}
  | Change, true, m :: rest =>
      Some {| cache := mutate (cache s) m; exclusive := true; pending := rest |}
  | Finish, true, [] =>
      Some {| cache := cache s; exclusive := false; pending := [] |}
  | _, _, _ => None
  end.

Fixpoint run (evs : list event) (s : state) : option state :=
  match evs with
  | [] => Some s
  | ev :: rest =>
      match step ev s with
      | Some s' => run rest s'
      | None => None
      end
  end.






End Model.

Arguments CacheEntry : clear implicits.
Arguments EntryStore : clear implicits.
Arguments SemanticCache : clear implicits.
Arguments operation : clear implicits.
Arguments mutation : clear implicits.
Arguments state : clear implicits.
Arguments event : clear implicits.



End Cache.


(** * Facts about Python text *)

Section Text.
Import Py.

Lemma startswith_app (p r : str) : startswith p (p ++ r) = true.
Proof.
  induction p as [|a p IH]; simpl; [done|].
  by rewrite N.eqb_refl, IH.
Qed.

Lemma startswith_inv (p s : str) :
  startswith p s = true -> s = p ++ drop (length p) s.
Proof.
  revert s; induction p as [|a p IH]; intros [|b s]; simpl; try done.
  intros [Hab Hps]%andb_prop. apply N.eqb_eq in Hab as ->.
  f_equal. by apply IH.
Qed.

Lemma startswith_weaken (p a b : str) :
  startswith p a = true -> startswith p (a ++ b) = true.
Proof.
  intros H. rewrite (startswith_inv _ _ H), <- (assoc_L (++)).
  apply startswith_app.
Qed.

(** A prefix of [u ++ t] lies inside [u], or leaves [u] and continues
    into [t] with one of its non-empty suffixes. *)
Lemma startswith_app_split (p u t : str) :
  startswith p (u ++ t) = true ->
  startswith p u = true \/ exists v, In v (suffixes p) /\ startswith v t = true.
Proof.
  revert p; induction u as [|a u IH]; intros p H; simpl in H.
  - destruct p as [|b p]; [by left|].
    right. exists (b :: p). split; [by left|done].
  - destruct p as [|b p]; [by left|].
    simpl in H. apply andb_prop in H as [Hab H].
    destruct (IH _ H) as [Hl|(v & Hv & Hs)].
    + left. simpl. by rewrite Hab, Hl.
    + right. exists v. split; [by right|done].
Qed.

(** Two prefixes of one text are comparable. *)
Lemma prefix_comparable (v r t : str) :
  startswith v (r ++ t) = true -> comparable v r = true.
Proof.
  unfold comparable.
  revert r; induction v as [|a v IH]; intros [|b r] H; simpl in *; try done.
  apply andb_prop in H as [Hab H].
  rewrite Hab, (N.eqb_sym b a), Hab. simpl. by apply IH.
Qed.

Lemma occurs_app_clear (p w t : str) :
  occurs p t = false ->
  (forall w', In w' (suffixes w) -> startswith p (w' ++ t) = false) ->
  occurs p (w ++ t) = false.
Proof.
  intros Ht. induction w as [|a w IH]; intros Hw; simpl; [done|].
  pose proof (Hw (a :: w) (or_introl eq_refl)) as Hhead.
  simpl in Hhead. rewrite Hhead. simpl.
  apply IH. intros w' Hin. apply Hw. by right.
Qed.

Lemma occurs_startswith (p s : str) :
  occurs p s = false -> startswith p s = false.
Proof.
  destruct s as [|c s]; simpl; [done|].
  by intros [? ?]%orb_false_elim.
Qed.

End Text.

(** * The scan of [re.sub] for a literal pattern *)

Lemma scan_skip (pat rep : Py.str) (k : nat) (s : Py.str) :
  Py.re.scan pat rep k s = Py.re.scan pat rep 0 (drop k s).
Proof.
  revert k; induction s as [|c s IH]; intros [|k]; simpl; done.
Qed.

(** A text in which the pattern does not occur is left as it is. *)
Lemma scan_absent (pat rep s : Py.str) :
  Py.occurs pat s = false -> Py.re.scan pat rep 0 s = s.
Proof.
  induction s as [|c s IH]; [done|].
  cbn [Py.occurs Py.re.scan]. intros [H1 H2]%orb_false_elim.
  rewrite H1. f_equal. by apply IH.
Qed.

Lemma occurs_length (p t : Py.str) :
  Py.occurs p t = true -> length p <= length t.
Proof.
  induction t as [|c t IH]; cbn [Py.occurs].
  - by destruct p.
  - intros [H|H]%orb_prop; [|specialize (IH H); simpl; lia].
    rewrite (startswith_inv _ _ H), length_app. lia.
Qed.

Lemma join_cons (sep g : Py.str) (gaps : list Py.str) (last : Py.str) :
  Py.join sep (g :: gaps ++ [last]) = g ++ sep ++ Py.join sep (gaps ++ [last]).
Proof. simpl. by destruct (gaps ++ [last]) eqn:E; [destruct gaps|]. Qed.

Section Scan.
Import Py Py.re.
Variables pat rep : str.
Hypothesis pat_nonempty : pat <> [].

(** The three equations of the scan. *)
Lemma scan_nil : scan pat rep 0 [] = [].
Proof. done. Qed.

Lemma scan_match (r : str) :
  scan pat rep 0 (pat ++ r) = rep ++ scan pat rep 0 r.
Proof.
  pose proof (startswith_app pat r) as Hs.
  pose proof (scan_skip pat rep (length pat - 1)) as Hk.
  destruct pat as [|a p]; [done|].
  change ((a :: p) ++ r) with (a :: (p ++ r)) in *.
  cbn [scan]. rewrite Hs, Hk. f_equal.
  simpl. by rewrite Nat.sub_0_r, drop_app_length.
Qed.

Lemma scan_copy (c : N) (s : str) :
  startswith pat (c :: s) = false ->
  scan pat rep 0 (c :: s) = c :: scan pat rep 0 s.
Proof. intros H. cbn [scan]. by rewrite H. Qed.

(** Induction along the scan: the empty text, a match at the head, a
    copied character. *)
Lemma scan_ind (Q : str -> Prop) :
  Q [] ->
  (forall r, Q r -> Q (pat ++ r)) ->
  (forall c s, startswith pat (c :: s) = false -> Q s -> Q (c :: s)) ->
  forall s, Q s.
Proof.
  intros Hnil Hmatch Hcopy s.
  remember (length s) as n eqn:Hn. revert s Hn.
  induction n as [n IH] using lt_wf_ind. intros s ->.
  destruct s as [|c s]; [done|].
  destruct (startswith pat (c :: s)) eqn:E.
  - rewrite (startswith_inv _ _ E). apply Hmatch.
    eapply IH; [|done].
    rewrite length_drop. destruct pat; [done|]. simpl. lia.
  - apply Hcopy; [done|]. eapply IH; [|done]. simpl. lia.
Qed.

(** Every output is the input with the pattern between consecutive
    pieces exchanged for the replacement; no match starts inside a
    piece. *)
Lemma scan_pieces (s : str) :
  exists (gaps : list str) (last : str),
    s = join pat (gaps ++ [last])
    /\ scan pat rep 0 s = join rep (gaps ++ [last])
    /\ forallb (first_at_end pat) gaps = true
    /\ occurs pat last = false.
Proof.
  induction s as [|r IH|c s Hc IH] using scan_ind.
  - exists [], []. repeat split; try done.
    simpl. by destruct pat.
  - destruct IH as (gaps & last & Hs & Hout & Hg & Hl).
    exists ([] :: gaps), last.
    change (([] :: gaps) ++ [last]) with ([] :: gaps ++ [last]).
    rewrite !join_cons, scan_match, <- Hs, <- Hout.
    repeat split; try done.
    simpl. rewrite Hg, andb_true_r. unfold first_at_end. simpl.
    apply negb_true_iff.
    destruct (occurs pat (removelast pat)) eqn:E; [|done].
    apply occurs_length in E.
    destruct pat as [|a p _] using rev_ind; [done|].
    rewrite removelast_last, length_app in E. simpl in E. lia.
  - destruct IH as (gaps & last & Hs & Hout & Hg & Hl).
    rewrite scan_copy by done.
    destruct gaps as [|g gaps].
    + exists [], (c :: last). simpl in *. subst s. rewrite Hout.
      repeat split; try done. by rewrite Hc, Hl.
    + exists ((c :: g) :: gaps), last.
      change (((c :: g) :: gaps) ++ [last]) with ((c :: g) :: gaps ++ [last]).
      change ((g :: gaps) ++ [last]) with (g :: gaps ++ [last]) in Hs, Hout.
      rewrite join_cons in Hs, Hout. rewrite !join_cons, Hout, Hs at 1.
      repeat split; try done.
      simpl in Hg |- *. apply andb_prop in Hg as [Hg1 Hg2].
      rewrite Hg2, andb_true_r.
      unfold first_at_end in *. apply negb_true_iff in Hg1. apply negb_true_iff.
      simpl. rewrite Hg1, orb_false_r.
      destruct (startswith pat (c :: g ++ removelast pat)) eqn:E; [|done].
      assert (startswith pat (c :: s) = true) as Hhead; [|congruence].
      rewrite Hs. revert E. clear.
      destruct pat as [|a p _] using rev_ind; [done|].
      rewrite removelast_last. intros E.
      rewrite <- (assoc_L (++) p [a]), (assoc_L (++) g p).
      by apply (startswith_weaken _ (c :: g ++ p)).
Qed.

(** When pattern and replacement are clash free, the pattern starts
    nowhere in the output. *)
Hypothesis no_clash : clash_free pat rep = true.

Lemma clash_suffix_pat (v : str) :
  In v (suffixes pat) -> comparable v rep = false.
Proof.
  apply andb_prop in no_clash as [H _].
  rewrite forallb_forall in H. intros Hv. by apply negb_true_iff, H.
Qed.

Lemma clash_suffix_rep (w : str) :
  In w (suffixes rep) -> comparable pat w = false.
Proof.
  apply andb_prop in no_clash as [_ H].
  rewrite forallb_forall in H. intros Hw. by apply negb_true_iff, H.
Qed.

(** A match in [u ++ scan s] that starts in [u] was already there in
    [u ++ s]. *)
Lemma scan_reflects_prefix (s u : str) :
  startswith pat (u ++ scan pat rep 0 s) = true ->
  startswith pat (u ++ s) = true.
Proof.
  revert u; induction s as [|r IH|c s Hc IH] using scan_ind; intros u H.
  - done.
  - rewrite scan_match in H.
    apply startswith_app_split in H as [H|(v & Hv & H)].
    + by apply startswith_weaken.
    + apply prefix_comparable in H. by rewrite clash_suffix_pat in H.
  - rewrite scan_copy in H by done.
    rewrite (cons_middle c u), (assoc_L (++)) in H |- *. by apply IH.
Qed.

Lemma scan_clears (s : str) : occurs pat (scan pat rep 0 s) = false.
Proof.
  induction s as [|r IH|c s Hc IH] using scan_ind.
  - simpl. by destruct pat.
  - rewrite scan_match. apply occurs_app_clear; [done|].
    intros w Hw. destruct (startswith pat (w ++ _)) eqn:E; [|done].
    apply prefix_comparable in E. by rewrite clash_suffix_rep in E.
  - rewrite scan_copy by done. cbn [occurs]. rewrite IH, orb_false_r.
    destruct (startswith pat (c :: scan pat rep 0 s)) eqn:E; [|done].
    apply (scan_reflects_prefix s [c]) in E. simpl in E. congruence.
Qed.

Lemma scan_idempotent (s : str) :
  scan pat rep 0 (scan pat rep 0 s) = scan pat rep 0 s.
Proof. apply scan_absent, scan_clears. Qed.

End Scan.

(** * The script *)

Section Script.
Import Py.

Lemma compile_old_pattern : re.compile old_pattern = Some legacy_text.
Proof. vm_compute. reflexivity. Qed.

Lemma template_new_code : re.template new_code = Some new_code.
Proof. vm_compute. reflexivity. Qed.

Lemma legacy_text_nonempty : legacy_text <> [].
Proof. discriminate. Qed.

Lemma legacy_new_clash_free : clash_free legacy_text new_code = true.
Proof. vm_compute. reflexivity. Qed.

(** [re.sub] on small inputs: an escaped dot is a literal dot, matches are
    taken from the left and do not overlap, the empty pattern matches at
    every position, an unescaped dot is outside the fragment. *)
Example sub_escaped_dot :
  re.sub (str_of "a\.b") (str_of "X") (str_of "a.b a-b a.b")
  = Some (str_of "X a-b X").
Proof. reflexivity. Qed.

Example sub_leftmost :
  re.sub (str_of "aa") (str_of "b") (str_of "aaaaa") = Some (str_of "bba").
Proof. reflexivity. Qed.

Example sub_empty_pattern :
  re.sub [] (str_of "-") (str_of "ab") = Some (str_of "-a-b-").
Proof. reflexivity. Qed.

Example sub_outside_fragment :
  re.sub (str_of "a.b") (str_of "X") (str_of "a.b") = None.
Proof. reflexivity. Qed.

Lemma sub_script (s : str) :
  re.sub old_pattern new_code s = Some (re.scan legacy_text new_code 0 s).
Proof.
  unfold re.sub. rewrite compile_old_pattern, template_new_code. done.
Qed.

End Script.

(** * Line endings *)

Section Newlines.
Import Py.

Lemma universal_newlines_no_cr (raw : str) :
  has_cr (universal_newlines raw) = false.
Proof.
  remember (length raw) as n eqn:Hn. revert raw Hn.
  induction n as [n IH] using lt_wf_ind. intros raw ->.
  destruct raw as [|c rest]; [done|].
  cbn [universal_newlines].
  destruct (N.eqb c CR) eqn:Ec.
  - cbn [has_cr existsb]. change (N.eqb CR LF) with false. simpl.
    destruct rest as [|d rest']; [done|].
    destruct (N.eqb d LF); (eapply IH; [|done]); simpl; lia.
  - cbn [has_cr existsb]. rewrite N.eqb_sym, Ec. simpl.
    eapply IH; [|done]. simpl; lia.
Qed.

Lemma universal_newlines_other (c : N) (s : str) :
  N.eqb c CR = false -> universal_newlines (c :: s) = c :: universal_newlines s.
Proof. intros H. cbn [universal_newlines]. by rewrite H. Qed.

Lemma universal_newlines_crlf (s : str) :
  universal_newlines (CR :: LF :: s) = LF :: universal_newlines s.
Proof. done. Qed.

Lemma newlines_round_trip (p : platform) (s : str) :
  has_cr s = false -> universal_newlines (translate_newlines p s) = s.
Proof.
  induction s as [|c s IH]; [done|].
  cbn [has_cr existsb]. intros [Hc Hs]%orb_false_elim.
  specialize (IH Hs). unfold translate_newlines in *. cbn [flat_map].
  rewrite N.eqb_sym in Hc.
  set (tail := flat_map _ s) in *.
  destruct (N.eqb c LF) eqn:El.
  - apply N.eqb_eq in El as ->.
    destruct p; cbn [linesep app].
    + by rewrite universal_newlines_other, IH.
    + by rewrite universal_newlines_crlf, IH.
  - cbn [app]. by rewrite universal_newlines_other, IH.
Qed.

Lemma scan_no_cr (pat rep : str) (k : nat) (s : str) :
  has_cr rep = false -> has_cr s = false ->
  has_cr (re.scan pat rep k s) = false.
Proof.
  intros Hr. revert k. induction s as [|c s IH]; intros k; [done|].
  cbn [has_cr existsb]. intros [Hc Hs]%orb_false_elim.
  cbn [re.scan]. destruct k as [|k]; [|by apply IH].
  destruct (startswith pat (c :: s)).
  - unfold has_cr. rewrite existsb_app. fold (has_cr rep). rewrite Hr.
    by apply IH.
  - cbn [has_cr existsb]. rewrite Hc. by apply IH.
Qed.

End Newlines.

(** * The blocks and their rendering *)

Lemma render_installed : Rust.render Rust.installed_block = Py.new_code.
Proof. vm_compute. reflexivity. Qed.

Lemma render_legacy : Rust.render Rust.legacy_block = Py.legacy_text.
Proof. vm_compute. reflexivity. Qed.

(** * The script, end to end *)

Section Main.
Import Py.

Lemma new_code_no_cr : has_cr new_code = false.
Proof. vm_compute. reflexivity. Qed.

Lemma main_run (p : platform) (w : world) (raw : str) :
  files w !! PATH = Some (Text raw) ->
  main p w =
    (inr tt,
     {| files := <[PATH := Text (translate_newlines p
                    (re.scan legacy_text new_code 0 (universal_newlines raw)))]>
                   (files w);
        stdout := stdout w ++ [MESSAGE ++ [LF]] |}).
Proof.
  intros Hf. unfold main, mbind, io_bind, read_text, re_sub.
  rewrite Hf, sub_script. done.
Qed.

(** Claim C2. Whatever text the file holds, the script reads it as
    [content], computes [re.sub(old_pattern, new_code, content)], which
    exchanges every occurrence of the legacy block (the write-lock
    acquisition followed directly by the awaited [store_response] call) for
    the installed block, and writes that result, and nothing else, back
    to the same file: the file then holds the result with its line feeds
    as the platform's separator and reads back as the result, every other
    file is as before, and one line is printed. *)
Theorem main_writes_substitution (p : platform) (w : world) (raw : str) :
  files w !! PATH = Some (Text raw) ->
  exists new_content : str,
    re.sub old_pattern new_code (universal_newlines raw) = Some new_content
    /\ new_content =
         re.sub_literal (Rust.render Rust.legacy_block)
           (Rust.render Rust.installed_block) (universal_newlines raw)
    /\ main p w =
         (inr tt,
          {| files := <[PATH := Text (translate_newlines p new_content)]> (files w);
             stdout := stdout w ++ [MESSAGE ++ [LF]] |})
    /\ read_text PATH (main p w).2 = (inr new_content, (main p w).2).
Proof.
  intros Hf. eexists. split; [apply sub_script|].
  rewrite render_legacy, render_installed. split; [done|].
  rewrite (main_run _ _ _ Hf). split; [done|].
  unfold read_text. cbn [files snd]. rewrite lookup_insert_eq.
  rewrite newlines_round_trip; [done|].
  apply scan_no_cr; [apply new_code_no_cr|apply universal_newlines_no_cr].
Qed.

Lemma main_writes_substitution_witness :
  main Windows sample_world =
    (inr tt,
     {| files := {[ PATH := Text (translate_newlines Windows
                      (str_of "fn f() {" ++ [LF] ++ new_code ++ [LF] ++ str_of "}")) ]};
        stdout := [MESSAGE ++ [LF]] |}).
Proof.
  destruct (main_writes_substitution Windows sample_world
              (str_of "fn f() {" ++ [CR; LF] ++ legacy_text ++ [CR; LF] ++ str_of "}"))
    as (t & Hsub & Ht & Hmain & _).
  - vm_compute. reflexivity.
  - rewrite Hmain, Ht. vm_compute. reflexivity.
Defined.

(** Claim C8. The text transformation is idempotent: for every string
    [s], applying [re.sub(old_pattern, new_code, _)] to its own result
    gives that result again, because the legacy block starts nowhere in an
    output (neither inside an inserted block nor across its borders); hence
    a second run of the script leaves the file as the first run left it. *)
Theorem sub_idempotent :
  (forall s : str, exists t : str,
      re.sub old_pattern new_code s = Some t
      /\ re.sub old_pattern new_code t = Some t
      /\ occurs legacy_text t = false)
  /\ (forall (p : platform) (w : world) (raw : str),
        files w !! PATH = Some (Text raw) ->
        (main p w).1 = inr tt
        /\ (main p (main p w).2).1 = inr tt
        /\ files (main p (main p w).2).2 = files (main p w).2).
Proof.
  split.
  - intros s. exists (re.scan legacy_text new_code 0 s).
    rewrite !sub_script.
    rewrite scan_idempotent by (apply legacy_text_nonempty || apply legacy_new_clash_free).
    repeat split.
    apply scan_clears; [apply legacy_text_nonempty|apply legacy_new_clash_free].
  - intros p w raw Hf. rewrite (main_run _ _ _ Hf). cbn [fst snd].
    set (t := re.scan legacy_text new_code 0 (universal_newlines raw)).
    assert (Hcr : has_cr t = false).
    { apply scan_no_cr; [apply new_code_no_cr|apply universal_newlines_no_cr]. }
    erewrite main_run by (cbn [files]; apply lookup_insert_eq).
    cbn [fst snd files]. rewrite (newlines_round_trip _ _ Hcr). subst t.
    rewrite scan_idempotent by (apply legacy_text_nonempty || apply legacy_new_clash_free).
    by rewrite insert_insert_eq.
Qed.

Lemma sub_idempotent_witness :
  files sample_world !! PATH
    = Some (Text (str_of "fn f() {" ++ [CR; LF] ++ legacy_text ++ [CR; LF] ++ str_of "}"))
  /\ files (main Windows (main Windows sample_world).2).2
     = files (main Windows sample_world).2.
Proof.
  split; [vm_compute; reflexivity|].
  eapply (proj2 sub_idempotent Windows sample_world). vm_compute. reflexivity.
Defined.

(** The substitution changes only the matched regions: every input is a sequence
    of pieces with the legacy block between consecutive pieces, the output
    is the same pieces in the same order with the installed block between
    them, the legacy block starts nowhere inside a piece (so each of its
    occurrences, not only the first, is one of those exchanged), and it
    does not occur in the last piece. *)
Theorem sub_frame (s : str) :
  exists (gaps : list str) (last : str),
    s = join legacy_text (gaps ++ [last])
    /\ re.sub old_pattern new_code s = Some (join new_code (gaps ++ [last]))
    /\ forallb (first_at_end legacy_text) gaps = true
    /\ occurs legacy_text last = false.
Proof.
  destruct (scan_pieces legacy_text new_code legacy_text_nonempty s)
    as (gaps & last & Hs & Hout & Hg & Hl).
  exists gaps, last. rewrite sub_script, Hout. done.
Qed.

(** Claim C10, amended. If the legacy block does not occur in the text
    read, the script still rewrites the file, with the text it read, and
    still prints its line: the file then holds its former content with the
    line endings normalised (read as line feeds, written as the platform's
    separator), hence the very same content when the line endings were the
    platform's already; and the result and the output of a run are those
    of a run on any other file, whether the block occurs there or not. *)
Theorem main_absent_pattern (p : platform) (w : world) (raw : str) :
  files w !! PATH = Some (Text raw) ->
  occurs legacy_text (universal_newlines raw) = false ->
  main p w =
    (inr tt,
     {| files := <[PATH := Text (normalize_newlines p raw)]> (files w);
        stdout := stdout w ++ [MESSAGE ++ [LF]] |})
  /\ (normalize_newlines p raw = raw -> files (main p w).2 = files w)
  /\ (forall (w' : world) (raw' : str),
        files w' !! PATH = Some (Text raw') -> stdout w' = stdout w ->
        (main p w').1 = (main p w).1 /\ stdout (main p w').2 = stdout (main p w).2).
Proof.
  intros Hf Habs.
  assert (Hm := main_run p w raw Hf).
  rewrite scan_absent in Hm by done. split; [done|]. split.
  - intros Hn. rewrite Hm. cbn [snd files]. unfold normalize_newlines in Hn.
    rewrite Hn. by apply insert_id.
  - intros w' raw' Hf' Hout. rewrite (main_run p w' raw' Hf'), Hm.
    cbn [fst snd stdout]. by rewrite Hout.
Qed.

Lemma main_absent_pattern_witness :
  main Posix (plain_world (str_of "a" ++ [LF] ++ str_of "b")) =
    (inr tt,
     {| files := <[PATH := Text (str_of "a" ++ [LF] ++ str_of "b")]>
                   (files (plain_world (str_of "a" ++ [LF] ++ str_of "b")));
        stdout := [MESSAGE ++ [LF]] |}).
Proof.
  apply (main_absent_pattern Posix (plain_world (str_of "a" ++ [LF] ++ str_of "b"))
           (str_of "a" ++ [LF] ++ str_of "b")); vm_compute; reflexivity.
Defined.

(** Claim C10 as stated fails: the block occurs in neither file, and the
    rewritten file differs from the one read, on Windows for a file with
    line feeds, on Posix for a file with carriage return and line feed. *)
Lemma rewrite_changes_line_endings :
  (occurs legacy_text (universal_newlines (str_of "a" ++ [LF] ++ str_of "b")) = false
   /\ files (main Windows (plain_world (str_of "a" ++ [LF] ++ str_of "b"))).2 !! PATH
      = Some (Text (str_of "a" ++ [CR; LF] ++ str_of "b")))
  /\ (occurs legacy_text (universal_newlines (str_of "a" ++ [CR; LF] ++ str_of "b")) = false
      /\ files (main Posix (plain_world (str_of "a" ++ [CR; LF] ++ str_of "b"))).2 !! PATH
         = Some (Text (str_of "a" ++ [LF] ++ str_of "b")))
  /\ (str_of "a" ++ [CR; LF] ++ str_of "b" <> str_of "a" ++ [LF] ++ str_of "b").
Proof. repeat split; try (vm_compute; reflexivity). discriminate. Qed.

End Main.

(** * More about the substitution and the script's runs *)

Section Everywhere.
Import Py.

Lemma startswith_cut (v p b : str) :
  startswith v (p ++ b) = true -> length v <= length p -> startswith v p = true.
Proof.
  revert p; induction v as [|a v IH]; intros [|c p] H Hl; simpl in *; try done; try lia.
  apply andb_prop in H as [-> H]. simpl. apply IH; [done|lia].
Qed.

Lemma suffixes_length (v p : str) : In v (suffixes p) -> length v <= length p.
Proof.
  induction p as [|a p IH]; simpl; [done|].
  intros [<-|H]; [done|]. specialize (IH H). lia.
Qed.

(** A prefix of [(c :: u) ++ t] that is no prefix of [c :: u] continues
    into [t] with one of its proper suffixes. *)
Lemma startswith_app_proper (p u t : str) (c : N) :
  startswith p ((c :: u) ++ t) = true -> startswith p (c :: u) = false ->
  exists v, In v (suffixes (tail p)) /\ startswith v t = true.
Proof.
  destruct p as [|a p]; [done|]. simpl. intros [Hac H]%andb_prop Hn.
  rewrite Hac in Hn. simpl in Hn.
  apply startswith_app_split in H as [H|H]; [congruence|done].
Qed.

Variables pat rep : str.
Hypothesis pat_nonempty : pat <> [].
Hypothesis pat_unbordered : unbordered pat = true.

(** For an unbordered pattern the scan replaces an occurrence wherever it
    stands: what precedes it cannot make the scan run over it. *)
Lemma scan_everywhere (a b : str) :
  re.scan pat rep 0 (a ++ pat ++ b)
  = re.scan pat rep 0 a ++ rep ++ re.scan pat rep 0 b.
Proof.
  induction a as [|r IH|c a Hc IH] using (scan_ind pat pat_nonempty).
  - simpl. by apply scan_match.
  - rewrite <- (assoc_L (++)), !scan_match, IH by done. by rewrite (assoc_L (++)).
  - rewrite scan_copy by done.
    change ((c :: a) ++ pat ++ b) with (c :: (a ++ pat ++ b)).
    rewrite scan_copy, IH; [done|].
    destruct (startswith pat (c :: a ++ pat ++ b)) eqn:E; [|done].
    destruct (startswith_app_proper pat a (pat ++ b) c E Hc) as (v & Hv & Hs).
    unfold unbordered in pat_unbordered. rewrite forallb_forall in pat_unbordered.
    specialize (pat_unbordered v Hv). apply negb_true_iff in pat_unbordered.
    apply startswith_cut in Hs; [congruence|].
    apply suffixes_length in Hv. destruct pat; simpl in *; lia.
Qed.

End Everywhere.

Section Runs.
Import Py.

Lemma legacy_unbordered : unbordered legacy_text = true.
Proof. vm_compute. reflexivity. Qed.

Lemma occurs_app_intro (p a b : str) : occurs p (a ++ p ++ b) = true.
Proof.
  induction a as [|c a IH]; simpl.
  - destruct (p ++ b) eqn:E; simpl.
    + by destruct p.
    + rewrite <- E, startswith_app. done.
  - rewrite IH. apply orb_true_r.
Qed.

Lemma join_length (sep : str) (gaps : list str) (last : str) :
  length (join sep (gaps ++ [last]))
  = length (concat gaps) + length last + length gaps * length sep.
Proof.
  induction gaps as [|g gaps IH]; [simpl; lia|].
  change ((g :: gaps) ++ [last]) with (g :: gaps ++ [last]).
  rewrite join_cons, !length_app, IH. simpl. rewrite length_app. lia.
Qed.

Lemma translate_posix (s : str) : translate_newlines Posix s = s.
Proof.
  unfold translate_newlines. induction s as [|c s IH]; [done|].
  cbn [flat_map]. rewrite IH. destruct (N.eqb c LF) eqn:E; [|done].
  by apply N.eqb_eq in E as ->.
Qed.

Lemma patched_no_cr (raw : str) :
  has_cr (re.scan legacy_text new_code 0 (universal_newlines raw)) = false.
Proof. apply scan_no_cr; [apply new_code_no_cr|apply universal_newlines_no_cr]. Qed.

Lemma universal_newlines_id (s : str) :
  has_cr s = false -> universal_newlines s = s.
Proof.
  intros H. rewrite <- (translate_posix s) at 1. by apply newlines_round_trip.
Qed.

(** Claim C9, amended. The script changes only the matched regions of
    the text it reads, and the line endings of the file: the text read is
    a sequence of pieces with the legacy block between consecutive pieces,
    the legacy block starts nowhere inside a piece and does not occur in
    the last one (so each of its occurrences, not only the first, is one
    of those exchanged), and the text written, which the file reads back
    as, is the same pieces in the same order with the installed block
    between them. In the file the line feeds of that text stand as the
    platform's separator; on Posix, for a file without carriage return,
    the file itself is those pieces before and after the run. *)
Theorem main_modifies_matched_regions (p : platform) (w : world) (raw : str) :
  files w !! PATH = Some (Text raw) ->
  exists (gaps : list str) (last : str),
    universal_newlines raw = join legacy_text (gaps ++ [last])
    /\ forallb (first_at_end legacy_text) gaps = true
    /\ occurs legacy_text last = false
    /\ files (main p w).2 !! PATH
       = Some (Text (translate_newlines p (join new_code (gaps ++ [last]))))
    /\ read_text PATH (main p w).2
       = (inr (join new_code (gaps ++ [last])), (main p w).2)
    /\ (p = Posix -> has_cr raw = false ->
        raw = join legacy_text (gaps ++ [last])
        /\ files (main p w).2 !! PATH = Some (Text (join new_code (gaps ++ [last])))).
Proof.
  intros Hf.
  destruct (scan_pieces legacy_text new_code legacy_text_nonempty
              (universal_newlines raw)) as (gaps & last & Hs & Hout & Hg & Hl).
  exists gaps, last. rewrite (main_run p w raw Hf). cbn [snd files].
  rewrite lookup_insert_eq, Hout.
  split; [done|]. split; [done|]. split; [done|]. split; [done|]. split.
  - unfold read_text. cbn [files]. rewrite lookup_insert_eq.
    rewrite newlines_round_trip; [done|].
    rewrite <- Hout. apply patched_no_cr.
  - intros -> Hcr. rewrite translate_posix.
    by rewrite <- Hs, universal_newlines_id.
Qed.

Lemma main_modifies_matched_regions_witness :
  exists (gaps : list str) (last : str),
    str_of "fn f() {" ++ [LF] ++ legacy_text ++ [LF] ++ str_of "}"
      = join legacy_text (gaps ++ [last])
    /\ files (main Posix (plain_world
           (str_of "fn f() {" ++ [LF] ++ legacy_text ++ [LF] ++ str_of "}"))).2 !! PATH
       = Some (Text (join new_code (gaps ++ [last]))).
Proof.
  destruct (main_modifies_matched_regions Posix
              (plain_world (str_of "fn f() {" ++ [LF] ++ legacy_text ++ [LF] ++ str_of "}"))
              (str_of "fn f() {" ++ [LF] ++ legacy_text ++ [LF] ++ str_of "}"))
    as (gaps & last & _ & _ & _ & _ & _ & Hposix); [vm_compute; reflexivity|].
  exists gaps, last. apply Hposix; [reflexivity|vm_compute; reflexivity].
Defined.

(** Claim C9 as stated fails on the file: the legacy block occurs once,
    between two pieces that end and start with a carriage return and a
    line feed; after the run on Posix the block is exchanged and the
    carriage returns, which lie outside the occurrence, are gone. *)
Lemma rewrite_changes_text_outside_matches :
  str_of "a" ++ [CR; LF] ++ legacy_text ++ [CR; LF] ++ str_of "b"
    = join legacy_text [str_of "a" ++ [CR; LF]; [CR; LF] ++ str_of "b"]
  /\ forallb (first_at_end legacy_text) [str_of "a" ++ [CR; LF]] = true
  /\ occurs legacy_text ([CR; LF] ++ str_of "b") = false
  /\ files (main Posix (plain_world
              (str_of "a" ++ [CR; LF] ++ legacy_text ++ [CR; LF] ++ str_of "b"))).2 !! PATH
     = Some (Text (str_of "a" ++ [LF] ++ new_code ++ [LF] ++ str_of "b"))
  /\ str_of "a" ++ [LF] ++ new_code ++ [LF] ++ str_of "b"
     <> join new_code [str_of "a" ++ [CR; LF]; [CR; LF] ++ str_of "b"].
Proof. repeat split; try (vm_compute; reflexivity). discriminate. Qed.

(** The substitution changes a text exactly when the legacy block occurs
    in it: then the result holds the installed block and is longer;
    otherwise the result is the text itself. *)
Theorem patch_effect (s : str) :
  exists t : str,
    re.sub old_pattern new_code s = Some t
    /\ if occurs legacy_text s
       then occurs new_code t = true /\ length s < length t
       else t = s.
Proof.
  exists (re.scan legacy_text new_code 0 s). split; [apply sub_script|].
  destruct (occurs legacy_text s) eqn:E; [|by apply scan_absent].
  destruct (scan_pieces legacy_text new_code legacy_text_nonempty s)
    as (gaps & last & Hs & Hout & _ & Hl).
  destruct gaps as [|g gaps].
  { simpl in Hs. congruence. }
  rewrite Hout. rewrite Hs at 1.
  change ((g :: gaps) ++ [last]) with (g :: gaps ++ [last]).
  split.
  - rewrite join_cons. apply occurs_app_intro.
  - change (g :: gaps ++ [last]) with ((g :: gaps) ++ [last]).
    rewrite !join_length.
    assert (length legacy_text < length new_code) by (vm_compute; lia).
    simpl. lia.
Qed.

(** The substitution distributes over an occurrence of the legacy block,
    whatever stands before and after it: the occurrence becomes the
    installed block and the two sides are substituted on their own. *)
Theorem patch_everywhere (a b : str) :
  exists ta tb : str,
    re.sub old_pattern new_code a = Some ta
    /\ re.sub old_pattern new_code b = Some tb
    /\ re.sub old_pattern new_code (a ++ legacy_text ++ b)
       = Some (ta ++ new_code ++ tb).
Proof.
  eexists _, _. rewrite !sub_script. repeat split.
  f_equal. apply scan_everywhere; [apply legacy_text_nonempty|apply legacy_unbordered].
Qed.

(** A run, however it ends, touches no file but the one at [PATH], and
    only adds to what was printed. *)
Theorem main_frame (p : platform) (w : world) :
  delete PATH (files (main p w).2) = delete PATH (files w)
  /\ exists out : list str, stdout (main p w).2 = stdout w ++ out.
Proof.
  destruct (files w !! PATH) as [[|raw]|] eqn:E.
  - unfold main, mbind, io_bind, read_text. rewrite E. cbn [snd].
    split; [done|]. exists []. by rewrite app_nil_r.
  - rewrite (main_run p w raw E). cbn [snd files stdout].
    split; [by rewrite delete_insert_eq|]. by eexists.
  - unfold main, mbind, io_bind, read_text. rewrite E. cbn [snd].
    split; [done|]. exists []. by rewrite app_nil_r.
Qed.

(** The line endings the file was saved with do not matter: a text saved
    with the separator of any platform [q] is patched as the text itself,
    and written with the separator of the platform [p] of the run. *)
Theorem main_line_ending_independent (p q : platform) (w : world) (s : str) :
  has_cr s = false ->
  files w !! PATH = Some (Text (translate_newlines q s)) ->
  exists t : str,
    re.sub old_pattern new_code s = Some t
    /\ files (main p w).2 !! PATH = Some (Text (translate_newlines p t)).
Proof.
  intros Hs Hf. eexists. split; [apply sub_script|].
  rewrite (main_run p w _ Hf). cbn [snd files].
  by rewrite lookup_insert_eq, newlines_round_trip.
Qed.

Lemma main_line_ending_independent_witness :
  files (main Posix (plain_world (translate_newlines Windows
           (str_of "fn f() {" ++ [LF] ++ legacy_text ++ [LF] ++ str_of "}")))).2 !! PATH
  = Some (Text (str_of "fn f() {" ++ [LF] ++ new_code ++ [LF] ++ str_of "}")).
Proof.
  destruct (main_line_ending_independent Posix Windows
              (plain_world (translate_newlines Windows
                 (str_of "fn f() {" ++ [LF] ++ legacy_text ++ [LF] ++ str_of "}")))
              (str_of "fn f() {" ++ [LF] ++ legacy_text ++ [LF] ++ str_of "}"))
    as (t & Ht & Hfile).
  - vm_compute. reflexivity.
  - vm_compute. reflexivity.
  - rewrite Hfile. f_equal. f_equal. rewrite translate_posix.
    apply (inj Some). rewrite <- Ht. vm_compute. reflexivity.
Defined.

(** After a run the file's line endings are the platform's: the file is
    left as it is by reading and writing it once more, and on Posix it
    holds no carriage return. *)
Theorem main_output_normalized (p : platform) (w : world) (raw : str) :
  files w !! PATH = Some (Text raw) ->
  exists raw' : str,
    files (main p w).2 !! PATH = Some (Text raw')
    /\ normalize_newlines p raw' = raw'
    /\ (p = Posix -> has_cr raw' = false).
Proof.
  intros Hf. rewrite (main_run p w raw Hf). cbn [snd files].
  eexists. split; [apply lookup_insert_eq|]. split.
  - unfold normalize_newlines. by rewrite newlines_round_trip by apply patched_no_cr.
  - intros ->. rewrite translate_posix. apply patched_no_cr.
Qed.

Lemma main_output_normalized_witness :
  exists raw' : str,
    files (main Windows sample_world).2 !! PATH = Some (Text raw')
    /\ normalize_newlines Windows raw' = raw'.
Proof.
  destruct (main_output_normalized Windows sample_world
              (str_of "fn f() {" ++ [CR; LF] ++ legacy_text ++ [CR; LF] ++ str_of "}"))
    as (raw' & H1 & H2 & _); [vm_compute; reflexivity|].
  by exists raw'.
Defined.

(** Of two runs in a row the last one decides: a run on platform [q]
    after a run on platform [p] leaves the files as a single run on [q]
    does. *)
Theorem main_last_run_wins (p q : platform) (w : world) (raw : str) :
  files w !! PATH = Some (Text raw) ->
  files (main q (main p w).2).2 = files (main q w).2.
Proof.
  intros Hf. rewrite (main_run p w raw Hf). cbn [snd].
  erewrite main_run by (cbn [files]; apply lookup_insert_eq).
  rewrite (main_run q w raw Hf). cbn [snd files].
  rewrite newlines_round_trip by apply patched_no_cr.
  rewrite scan_idempotent
    by (apply legacy_text_nonempty || apply legacy_new_clash_free).
  by rewrite insert_insert_eq.
Qed.

Lemma main_last_run_wins_witness :
  files (main Posix (main Windows sample_world).2).2
  = files (main Posix sample_world).2.
Proof.
  apply (main_last_run_wins Windows Posix sample_world
           (str_of "fn f() {" ++ [CR; LF] ++ legacy_text ++ [CR; LF] ++ str_of "}")).
  vm_compute. reflexivity.
Defined.

End Runs.

(** * The installed block at the call site *)

Section RustFacts.
Import Rust.

Lemma continues_sync_refl (c : config) : continues_sync c c.
Proof. exists []. by rewrite app_nil_r. Qed.

Lemma continues_sync_trans (c1 c2 c3 : config) :
  continues_sync c1 c2 -> continues_sync c2 c3 -> continues_sync c1 c3.
Proof.
  intros (e1 & H1 & F1) (e2 & H2 & F2). exists (e1 ++ e2).
  rewrite H2, H1, (assoc_L (++)). split; [done|]. by apply Forall_app.
Qed.

Lemma runs_sync_bind {A B : Type} (c : config) (m : result A)
    (f : A -> config -> result B) :
  runs_sync c m ->
  (forall a c', runs_sync c' (f a c')) ->
  runs_sync c (bind m f).
Proof.
  destruct m as [a c'|c'|]; simpl; intros Hm Hf; try done.
  specialize (Hf a c'). destruct (f a c') as [b c''|c''|]; simpl in *; try done;
    by eapply continues_sync_trans.
Qed.

Lemma runs_sync_emit {A : Type} (a : A) (k : call) (c : config) :
  awaited k = false -> runs_sync c (Value a (emit k c)).
Proof. intros Hk. exists [Event (guards c) k]. split; [done|]. by constructor. Qed.

(** An expression in which no [.await] occurs never suspends, in whatever
    configuration it is evaluated and whatever its calls return. *)
Lemma eval_sync (fails : string -> bool) (e : expr) :
  has_await e = false -> forall c, runs_sync c (eval fails e c).
Proof.
  induction e as [x|e f IH|r m es IHr IHes|e IH|a b IHa IHb|e IH]
    using expr_induction; cbn [has_await eval]; intros Hno c.
  - apply continues_sync_refl.
  - apply runs_sync_bind; [by apply IH|]. intros v c'. apply continues_sync_refl.
  - apply orb_false_elim in Hno as [Hr Hes].
    apply runs_sync_bind; [by apply IHr|]. intros rv c1.
    apply runs_sync_bind; [|intros avs c2; by apply runs_sync_emit].
    clear -IHes Hes. revert c1.
    induction es as [|a es IH]; intros c1; [apply continues_sync_refl|].
    apply Forall_cons in IHes as [Ha Hes']. cbn [existsb] in Hes.
    apply orb_false_elim in Hes as [Hna Hnes].
    cbn [eval_all]. apply runs_sync_bind; [by apply Ha|]. intros v c2.
    apply runs_sync_bind; [by apply IH|]. intros vs c3. apply continues_sync_refl.
  - done.
  - apply orb_false_elim in Hno as [Ha Hb].
    apply runs_sync_bind; [by apply IHa|]. intros va c1.
    apply runs_sync_bind; [by apply IHb|]. intros vb c2. apply continues_sync_refl.
  - apply runs_sync_bind; [by apply IH|]. intros v c1.
    destruct v; try apply continues_sync_refl.
    destruct (fails _); apply continues_sync_refl.
Qed.

(** Claim C3. The installed block dispatches on the variant of the
    optional embedding: on [Some(emb)] it calls [store_with_embedding]
    on the guard with the cache key, [emb], the cloned response text, the
    tier and the sum of the two token counts; on [None] it calls
    [store_response] with the same arguments but the embedding. *)
Theorem installed_dispatch (fails : string -> bool) (emb : value) :
  trace_of (run fails installed_block (VSome emb)) =
    [ Event [] (Call the_lock "write" [] true);
      Event [the_lock] (Call (VOpaque "response_text") "clone" [] false);
      Event [the_lock] (Call the_guard "store_with_embedding"
                          (VOpaque "cache_key" :: emb :: response_values) false) ]
  /\ trace_of (run fails installed_block VNone) =
    [ Event [] (Call the_lock "write" [] true);
      Event [the_lock] (Call (VOpaque "response_text") "clone" [] false);
      Event [the_lock] (Call the_guard "store_response"
                          (VOpaque "cache_key" :: response_values) true) ].
Proof. split; reflexivity. Qed.

(** Claim C4. The fast path is synchronous: no [.await] occurs in the
    [store_with_embedding] call, which therefore never suspends, and on
    [Some(emb)] the block has no suspension point once the write lock is
    taken; the fallback's [store_response] call is awaited, and is the one
    suspension point under the lock on [None]. *)
Theorem fast_path_synchronous (fails : string -> bool) (emb : value) :
  has_await store_with_embedding_call = false
  /\ has_await store_response_call = true
  /\ (forall c : config, runs_sync c (eval fails store_with_embedding_call c))
  /\ suspensions_under_write_lock (trace_of (run fails installed_block (VSome emb))) = []
  /\ suspensions_under_write_lock (trace_of (run fails installed_block VNone)) =
       [ Event [the_lock] (Call the_guard "store_response"
                             (VOpaque "cache_key" :: response_values) true) ].
Proof.
  split; [reflexivity|]. split; [reflexivity|]. split.
  - intros c. by apply eval_sync.
  - split; reflexivity.
Qed.

Lemma stays_bind {A B : Type} (m : result A) (f : A -> config -> result B) :
  stays m = true -> (forall a c, stays (f a c) = true) -> stays (bind m f) = true.
Proof. destruct m; simpl; auto. Qed.

Lemma existsb_false_Forall {A : Type} (f : A -> bool) (P : A -> Prop) (l : list A) :
  existsb f l = false -> Forall (fun a => f a = false -> P a) l -> Forall P l.
Proof.
  induction l as [|a l IH]; intros He Hf; [constructor|].
  cbn [existsb] in He. apply orb_false_elim in He as [Ha Hl].
  apply Forall_cons in Hf as [Hfa Hfl]. constructor; auto.
Qed.

Section Stays.
Variable fails : string -> bool.

Lemma eval_all_stays (es : list expr) :
  Forall (fun e => forall c, stays (eval fails e c) = true) es ->
  forall c, stays (eval_all (eval fails) es c) = true.
Proof.
  induction 1 as [|a es Ha _ IH]; intros c; [done|].
  cbn [eval_all]. apply stays_bind; [apply Ha|]. intros v c1.
  apply stays_bind; [apply IH|]. done.
Qed.

(** Without [?] an expression never leaves early, whatever its calls
    return. *)
Lemma eval_stays (e : expr) :
  has_try e = false -> forall c, stays (eval fails e c) = true.
Proof.
  induction e as [x|e f IH|r m es IHr IHes|e IH|a b IHa IHb|e IH]
    using expr_induction; cbn [has_try]; intros Hno c.
  - done.
  - cbn [eval]. apply stays_bind; [by apply IH|done].
  - apply orb_false_elim in Hno as [Hr Hes]. cbn [eval].
    apply stays_bind; [by apply IHr|]. intros rv c1.
    apply stays_bind; [|done]. apply eval_all_stays.
    by apply (existsb_false_Forall has_try).
  - destruct e as [x|e f|r m es|e|a b|e]; try done.
    specialize (IH Hno c). cbn [eval] in IH |- *.
    destruct (eval fails r c) as [rv c1|c1|]; simpl in *; try done.
    destruct (eval_all (eval fails) es c1) as [avs c2|c2|]; simpl in *; done.
  - apply orb_false_elim in Hno as [Ha Hb]. cbn [eval].
    apply stays_bind; [by apply IHa|]. intros va c1.
    apply stays_bind; [by apply IHb|done].
  - done.
Qed.

Lemma exec_all_stays (b : list stmt) :
  Forall (fun s => forall c, stays (exec fails s c) = true) b ->
  forall c, stays (exec_all (exec fails) b c) = true.
Proof.
  induction 1 as [|s b Hs _ IH]; intros c; [done|].
  cbn [exec_all]. apply stays_bind; [apply Hs|]. intros _ c1. apply IH.
Qed.

(** Without [?] a statement never leaves early. *)
Lemma exec_stays (s : stmt) :
  stmt_has_try s = false -> forall c, stays (exec fails s c) = true.
Proof.
  induction s as [t|x e|e|x sc t e IHt IHe] using stmt_induction;
    cbn [stmt_has_try]; intros Hno c; cbn [exec].
  - done.
  - apply stays_bind; [by apply eval_stays|done].
  - apply stays_bind; [by apply eval_stays|done].
  - apply orb_false_elim in Hno as [Hno He].
    apply orb_false_elim in Hno as [Hsc Ht].
    apply stays_bind; [by apply eval_stays|]. intros v c1.
    destruct v; try done.
    + apply stays_bind; [|done]. apply exec_all_stays.
      by apply (existsb_false_Forall stmt_has_try).
    + apply stays_bind; [|done]. apply exec_all_stays.
      by apply (existsb_false_Forall stmt_has_try).
Qed.

Lemma exec_block_stays (b : block) :
  existsb stmt_has_try b = false ->
  forall c, stays (exec_block fails b c) = true.
Proof.
  intros Hno. apply exec_all_stays.
  apply (existsb_false_Forall stmt_has_try); [done|].
  apply Forall_forall. intros s _. apply exec_stays.
Qed.

End Stays.

(** Claim C5. When the embedding is [None] the installed block still
    stores: it runs to its end and its last call is [store_response] on
    the guard. The store step never leaves the caller's function early:
    no [?] occurs in the block, so wherever it stands and whatever its
    calls return it does not leave early, and at the call site it runs to
    its end on [Some(emb)] too. *)
Theorem fallback_still_stores (fails : string -> bool) :
  completes (run fails installed_block VNone) = true
  /\ last (trace_of (run fails installed_block VNone)) =
       Some (Event [the_lock] (Call the_guard "store_response"
                                 (VOpaque "cache_key" :: response_values) true))
  /\ existsb stmt_has_try installed_block = false
  /\ (forall c : config, stays (exec_block fails installed_block c) = true)
  /\ forall emb : value, completes (run fails installed_block (VSome emb)) = true.
Proof.
  split; [reflexivity|]. split; [reflexivity|]. split; [reflexivity|]. split.
  - by apply exec_block_stays.
  - reflexivity.
Qed.

(** Claim C1 fails on [None]: the fallback branch awaits
    [store_response], which generates the embedding, while the write guard
    taken before the [if let] is alive; its trace is the legacy block's.
    Only on [Some(emb)] is no embedding generated under the write lock. *)
Theorem fallback_embeds_under_write_lock (fails : string -> bool) :
  existsb embeds_under_write_lock (trace_of (run fails installed_block VNone)) = true
  /\ trace_of (run fails installed_block VNone) = trace_of (run fails legacy_block VNone)
  /\ forall emb : value,
       existsb embeds_under_write_lock
         (trace_of (run fails installed_block (VSome emb))) = false.
Proof. repeat split; reflexivity. Qed.

End RustFacts.

Section SchedFacts.
Import Sched.

(** While the storer holds the lock and works, the only step is its own:
    the lookup's [AcquireRead] is not granted. *)
Lemma storer_step_only (t : task) (s' : system) :
  step (System Exclusive (Work :: t) lookup_task) s' ->
  s' = System Exclusive t lookup_task.
Proof. inversion 1; subst; simpl in *; congruence. Qed.

Lemma blocked_for (k n : nat) (t : task) (s' : system) :
  k <= n ->
  nsteps step k (System Exclusive (replicate n Work ++ t) lookup_task) s' ->
  s' = System Exclusive (replicate (n - k) Work ++ t) lookup_task.
Proof.
  revert n s'. induction k as [|k IH]; intros n s' Hk Hsteps.
  - inversion Hsteps; subst. by rewrite Nat.sub_0_r.
  - destruct n as [|n]; [lia|].
    inversion Hsteps as [|? ? mid ? Hstep Hrest]; subst.
    simpl in Hstep. apply storer_step_only in Hstep. subst mid.
    apply IH in Hrest; [|lia]. done.
Qed.

Lemma fallback_storer (fails : string -> bool) (latency : nat) :
  storer_task latency (Rust.trace_of (Rust.run fails Rust.installed_block Rust.VNone))
  = AcquireWrite :: replicate (S latency) Work ++ [Work; ReleaseWrite].
Proof.
  unfold storer_task.
  change (Rust.trace_of (Rust.run fails Rust.installed_block Rust.VNone))
    with (Rust.trace_of (Rust.run (fun _ => false) Rust.installed_block Rust.VNone)).
  cbn -[replicate]. by rewrite app_nil_r, <- (assoc_L (++)).
Qed.

(** Claim C7 fails on [None]: once the storer holds the write lock in the
    fallback branch, the lookup has not made its first step, and the lock
    is still held, after any [k] steps up to the latency of the embedding
    generation, however long that is. *)
Theorem lookup_blocked_during_embedding (fails : string -> bool) (latency : nat) :
  exists s1 : system,
    step (initial latency (Rust.trace_of (Rust.run fails Rust.installed_block Rust.VNone))) s1
    /\ rwlock s1 = Exclusive
    /\ forall (k : nat) (s : system),
         k <= latency -> nsteps step k s1 s ->
         rwlock s = Exclusive /\ lookup s = lookup_task.
Proof.
  exists (System Exclusive (replicate (S latency) Work ++ [Work; ReleaseWrite]) lookup_task).
  split; [|split; [done|]].
  - unfold initial. rewrite fallback_storer. by apply step_storer.
  - intros k s Hk Hsteps. apply blocked_for in Hsteps; [|lia]. by subst s.
Qed.

Lemma fast_path_storer (fails : string -> bool) (latency : nat) (emb : Rust.value) :
  storer_task latency (Rust.trace_of (Rust.run fails Rust.installed_block (Rust.VSome emb)))
  = [AcquireWrite; Work; Work; ReleaseWrite].
Proof. reflexivity. Qed.

End SchedFacts.

Section CacheFacts.
Context {Key Embedding Response Tier : Type}.
Import Cache.






End CacheFacts.

Section CacheRuns.
Import Cache.



End CacheRuns.
